(** * libdevcore/Log.cpp: the logging core of nsfminer

    A shallow embedding of [Log.cpp]: the decision whether a log statement
    emits, the prefix the constructor of [LogOutputStreamBase] formats, the
    thread-local context stack and the thread name.

    Conventions of the embedding
    - [int] and [unsigned] are 32 bits wide and are values of [Z]; the two
      conversions between them are written out in [Module Int32].
    - A [char const*] that points to a NUL-terminated string is a [string];
      where the pointer may be null it is an [option string].  A [char]
      array is a [list ascii], read as a C string by [cstr].
    - [std::map<type_info const*, bool>] is a [gmap] keyed by the address of
      the [type_info] object; [std::vector<std::string>] is a [list string],
      head of the list = first element of the vector.
    - [thread_local] variables are fields of the record [thread], the state
      of the calling thread; they are never shared between threads.
    - What [Log.cpp] takes from elsewhere (the colour macros of the header,
      the C library's clock and [strftime], the thread naming calls of the
      operating system, the target platform) is the record [Env].
    - The calls a function makes are recorded in order by the monad [Tr]. *)

From Stdlib Require Import Ascii.
From stdpp Require Import base numbers strings list gmap.

Local Open Scope Z_scope.

(** ** Machine integers *)

Module Int32.

Definition int_range (i : Z) : Prop := - 2 ^ 31 ≤ i < 2 ^ 31.
Definition unsigned_range (u : Z) : Prop := 0 ≤ u < 2 ^ 32.

(** Conversion of an [int] to [unsigned], as happens when an [int] is
    passed for an [unsigned] parameter. *)
Definition to_unsigned (i : Z) : Z := i `mod` 2 ^ 32.

(** The cast [(int)u] of an [unsigned]. *)
Definition to_int (u : Z) : Z :=
  let r := u `mod` 2 ^ 32 in
  if bool_decide (r < 2 ^ 31) then r else r - 2 ^ 32.

End Int32.

(** ** C strings *)

Definition NUL : ascii := Ascii.zero.

(** The string a [char] array holds: the bytes before the first NUL. *)
Fixpoint cstr (a : list ascii) : string :=
  match a with
  | [] => ""
  | c :: a' => if decide (c = NUL) then "" else String c (cstr a')
  end.

(** [operator<<] on the [std::stringstream] of a log statement. *)
Definition put (sstr s : string) : string := sstr +:+ s.
Notation "sstr << s" := (put sstr s) (at level 50, left associativity).

(** ** The environment of Log.cpp *)

Inductive platform : Type := Linux | Apple | Windows | Other.

(** [struct tm] of the C library. *)
Record tm : Type := Tm {
  tm_sec : Z; tm_min : Z; tm_hour : Z;
  tm_mday : Z; tm_mon : Z; tm_year : Z;
  tm_wday : Z; tm_yday : Z; tm_isdst : Z
}.

Record Env : Type := {
  (* the colour macros, from the header *)
  EthReset : string;
  EthBlack : string;
  EthNavy : string;
  EthTeal : string;
  EthViolet : string;
  (* __linux__, __APPLE__, _WIN32 *)
  target : platform;
  (* std::chrono::system_clock::to_time_t(system_clock::now()) *)
  system_clock_now : Z;
  localtime : Z → tm;
  (* strftime(buf, max, fmt, t): the value returned and the array [buf]
     after the call *)
  strftime : nat → string → tm → nat * list ascii;
  (* pthread_getname_np(pthread_self(), buffer, len), for the name the
     kernel holds for the thread: the array [buffer] after the call *)
  pthread_getname_np : string → nat → list ascii;
  (* pthread_setname_np(.., _n): the name the kernel holds afterwards *)
  pthread_setname_np : string → string → string
}.

(** [std::type_info const*]: a channel type is identified by the address of
    its [type_info] object. *)
Definition type_info : Type := positive.

(** ** Thread-local state *)

Record thread : Type := Thread {
  ThreadLocalLogName_name : option string;  (* thread_local char const* name *)
  logContexts : list string;                (* thread_local vector<string> *)
  kernel_name : string                      (* the kernel's name of the thread *)
}.

(** A thread as it starts: its [thread_local] variables are zero- and
    default-initialised; [kname] is the name the kernel gives it. *)
Definition thread_start (kname : string) : thread :=
  {| ThreadLocalLogName_name := None; logContexts := []; kernel_name := kname |}.

(** [ThreadLocalLogName(char const* _name) { name = _name; }] *)
Definition ThreadLocalLogName_ctor (_name : string) (th : thread) : thread :=
  {| ThreadLocalLogName_name := Some _name;
     logContexts := logContexts th;
     kernel_name := kernel_name th |}.

(** The initial thread runs the static initialiser
    [ThreadLocalLogName g_logThreadName("main")]. *)
Definition main_thread (kname : string) : thread :=
  ThreadLocalLogName_ctor "main" (thread_start kname).

(** ** std::vector, as far as Log.cpp uses it *)

Module vector.

Definition push_back {A} (x : A) (v : list A) : list A := v ++ [x].

(** [pop_back] requires a vector that is not empty; on an empty one the
    behaviour is undefined, which is [None]. *)
Definition pop_back {A} (v : list A) : option (list A) :=
  match v with
  | [] => None
  | _ :: _ => Some (removelast v)
  end.

End vector.

(** ** The context stack *)

Module ThreadLocalLogContext.

Definition push (_name : string) (th : thread) : thread :=
  {| ThreadLocalLogName_name := ThreadLocalLogName_name th;
     logContexts := vector.push_back _name (logContexts th);
     kernel_name := kernel_name th |}.

Definition pop (th : thread) : option thread :=
  v ← vector.pop_back (logContexts th);
  Some {| ThreadLocalLogName_name := ThreadLocalLogName_name th;
          logContexts := v;
          kernel_name := kernel_name th |}.

(** [string ret; for (auto const& i: logContexts) ret += _prior + i;
    return ret;]: the string returned and the state of the thread after
    the call. *)
Definition join (_prior : string) (th : thread) : string * thread :=
  (fold_left (λ ret i, ret +:+ (_prior +:+ i)) (logContexts th) "", th).

End ThreadLocalLogContext.

Module ThreadContext.

Definition push (_n : string) (th : thread) : thread :=
  ThreadLocalLogContext.push _n th.

Definition pop (th : thread) : option thread :=
  ThreadLocalLogContext.pop th.

Definition join (_prior : string) (th : thread) : string * thread :=
  ThreadLocalLogContext.join _prior th.

End ThreadContext.

(** ** The thread name *)

Definition getThreadName (E : Env) (th : thread) : string :=
  match target E with
  | Linux | Apple =>
      let buffer := pthread_getname_np E (kernel_name th) 127 in
      let buffer := <[127%nat := NUL]> buffer in
      cstr buffer
  | Windows | Other =>
      match ThreadLocalLogName_name th with
      | Some name => name
      | None => "<unknown>"
      end
  end.

Definition setThreadName (E : Env) (_n : string) (th : thread) : thread :=
  match target E with
  | Linux | Apple =>
      {| ThreadLocalLogName_name := ThreadLocalLogName_name th;
         logContexts := logContexts th;
         kernel_name := pthread_setname_np E _n (kernel_name th) |}
  | Windows | Other =>
      {| ThreadLocalLogName_name := Some _n;
         logContexts := logContexts th;
         kernel_name := kernel_name th |}
  end.

(** ** The calls a function makes *)

Inductive mutex : Type :=
| x_logOverride      (* mutex x_logOverride *)
| s_lock.            (* static SpinLock s_lock of simpleDebugOut *)

Inductive call : Type :=
| lock (m : mutex)
| unlock (m : mutex)
| map_find (k : type_info)                (* s_logOverride.find(k) *)
| call_now                                (* system_clock::now, to_time_t *)
| call_localtime
| call_strftime
| call_getThreadName
| call_join                               (* ThreadContext::join *)
| call_g_logPost (line tag : string)
| cerr_write (s : string)
| OutputDebugStringA (s : string).

#[global] Instance mutex_eq_dec : EqDecision mutex.
Proof. solve_decision. Defined.

(** A value together with the calls made to compute it, in order. *)
Record Tr (A : Type) : Type := Traced { result : A; calls : list call }.
Arguments Traced {A} _ _.
Arguments result {A} _.
Arguments calls {A} _.

#[global] Instance Tr_ret : MRet Tr := λ A a, Traced a [].
#[global] Instance Tr_bind : MBind Tr := λ A B f m,
  let r := f (result m) in Traced (result r) (calls m ++ calls r).

Definition does {A} (c : call) (a : A) : Tr A := Traced a [c].

(** The calls made while the mutex [m] is held, [held] telling whether it
    is held when the first call of the list is made. *)
Fixpoint calls_under (m : mutex) (held : bool) (cs : list call) : list call :=
  match cs with
  | [] => []
  | lock m' :: cs' =>
      if decide (m' = m) then calls_under m true cs'
      else (if held then [lock m'] else []) ++ calls_under m held cs'
  | unlock m' :: cs' =>
      if decide (m' = m) then calls_under m false cs'
      else (if held then [unlock m'] else []) ++ calls_under m held cs'
  | c :: cs' => (if held then [c] else []) ++ calls_under m held cs'
  end.

Definition is_lock (c : call) : bool :=
  match c with lock _ => true | _ => false end.

Definition is_map_access (c : call) : bool :=
  match c with map_find _ => true | _ => false end.

Definition is_post (c : call) : bool :=
  match c with call_g_logPost _ _ => true | _ => false end.

(** ** The output sink *)

Definition endl : string := String "010"%char "".

(** The C string at [s.data()] of a [std::string]: the characters of [s]
    before its first NUL, all of them when it has none. *)
Definition c_str (s : string) : string := cstr (String.list_ascii_of_string s).

(** [SpinGuard l(s_lock); cerr << _s << endl << flush;] and, on Windows,
    [OutputDebugStringA(_s.data()); OutputDebugStringA("\n");].  The stream
    is given the whole [std::string], the debugger the C string at
    [_s.data()]. *)
Definition simpleDebugOut (E : Env) (_s : string) (_tag : string) : Tr unit :=
  does (lock s_lock) tt;;
  does (cerr_write (_s +:+ endl)) tt;;
  match target E with
  | Windows =>
      does (OutputDebugStringA (c_str _s)) tt;; does (OutputDebugStringA endl) tt
  | _ => mret tt
  end;;
  does (unlock s_lock) tt.

(** ** Process-wide state *)

Record globals : Type := Globals {
  g_logVerbosity : Z;                      (* int dev::g_logVerbosity *)
  s_logOverride : gmap positive bool;      (* static map<type_info const*, bool> *)
  g_logPost : string → string → Tr unit    (* std::function, initially simpleDebugOut *)
}.

(** The state the static initialisers of [Log.cpp] leave:
    [int dev::g_logVerbosity = 5], an empty map, and
    [dev::g_logPost = simpleDebugOut]. *)
Definition static_init (E : Env) : globals :=
  {| g_logVerbosity := 5; s_logOverride := ∅; g_logPost := simpleDebugOut E |}.

(** ** The log statement *)

Record LogOutputStreamBase : Type := {
  m_autospacing : bool;
  m_verbosity : Z;          (* unsigned *)
  m_sstr : string           (* std::stringstream: the text written so far *)
}.

Definition c_begin (E : Env) : string := "  " +:+ EthViolet E.
Definition c_sep1 (E : Env) : string := EthReset E +:+ EthBlack E +:+ "|" +:+ EthNavy E.
Definition c_sep2 (E : Env) : string := EthReset E +:+ EthBlack E +:+ "|" +:+ EthTeal E.
Definition c_end (E : Env) : string := EthReset E +:+ "  ".

(** The condition of the [if] in the constructor, for the iterator
    [it = s_logOverride.find(_info)], [None] being [s_logOverride.end()]:
    [(it != end && it->second) || (it == end && (int)_v <= g_logVerbosity)]. *)
Definition emit_condition (it : option bool) (_v : Z) (verbosity : Z) : bool :=
  (bool_decide (it ≠ None) && default false it)
  || (bool_decide (it = None) && bool_decide (Int32.to_int _v ≤ verbosity)).

Definition shouldEmit (g : globals) (_info : type_info) (_v : Z) : bool :=
  emit_condition (s_logOverride g !! _info) _v (g_logVerbosity g).

(** [LogOutputStreamBase::LogOutputStreamBase], run by a thread in state
    [th].  The guard [l] is released when the constructor returns.  The
    calls for the operands of [<<] are recorded from left to right. *)
Definition LogOutputStreamBase_ctor (E : Env) (g : globals) (th : thread)
    (_id : string) (_info : type_info) (_v : Z) (_autospacing : bool)
    : Tr LogOutputStreamBase :=
  does (lock x_logOverride) tt;;
  it ← does (map_find _info) (s_logOverride g !! _info);
  sstr ← (if emit_condition it _v (g_logVerbosity g) then
            rawTime ← does call_now (system_clock_now E);
            t ← does call_localtime (localtime E rawTime);
            r ← does call_strftime (strftime E 24 "%X" t);
            let buf := if bool_decide (r.1 = 0%nat)
                       then <[0%nat := NUL]> (r.2) else r.2 in
            name ← does call_getThreadName (getThreadName E th);
            ctx ← does call_join (ThreadContext.join (c_sep2 E) th).1;
            mret ("" << _id << c_begin E << cstr buf << c_sep1 E
                     << name << ctx << c_end E)
          else mret "");
  does (unlock x_logOverride) tt;;
  mret {| m_autospacing := _autospacing; m_verbosity := _v; m_sstr := sstr |}.

(** Modelled from the spec: the end of a log statement.  The class that
    appends the message and posts the line when the statement ends is
    declared in the header, which [Log.cpp] includes; the specification says
    of it that the prefix is "exposed for the caller to append the actual
    log message text" and that on completion, "if the statement was going
    to emit", the composed string is handed "to the current Output Sink
    along with the raw channel id; otherwise do nothing". *)
Definition LogOutputStream_dtor (g : globals) (emit : bool)
    (s : LogOutputStreamBase) (_id : string) : Tr unit :=
  if emit then
    does (call_g_logPost (m_sstr s) _id) tt;;
    g_logPost g (m_sstr s) _id
  else mret tt.

Definition log_statement (E : Env) (g : globals) (th : thread)
    (_id : string) (_info : type_info) (_v : Z) (_autospacing : bool)
    (message : string) : Tr unit :=
  s ← LogOutputStreamBase_ctor E g th _id _info _v _autospacing;
  let s' := {| m_autospacing := m_autospacing s;
               m_verbosity := m_verbosity s;
               m_sstr := m_sstr s << message |} in
  LogOutputStream_dtor g (shouldEmit g _info _v) s' _id.

(** ** The override table of the specification *)

(** Modelled from the spec: the operations [override] and [clearOverride]
    of the Channel Override Table.  [Log.cpp] declares the table
    [s_logOverride] with internal linkage and reads it; no function of the
    file writes it.  The specification: [override] "installs or replaces
    the entry for channelKind", [clearOverride] "removes the entry",
    [isForced] "returns the override if present, else none". *)
Definition override (K : type_info) (enabled : bool) (g : globals) : globals :=
  {| g_logVerbosity := g_logVerbosity g;
     s_logOverride := <[K := enabled]> (s_logOverride g);
     g_logPost := g_logPost g |}.

Definition clearOverride (K : type_info) (g : globals) : globals :=
  {| g_logVerbosity := g_logVerbosity g;
     s_logOverride := delete K (s_logOverride g);
     g_logPost := g_logPost g |}.

Definition isForced (g : globals) (K : type_info) : option bool :=
  s_logOverride g !! K.

(** ** The properties in the words of the specification *)

(** [isForced(identity).unwrapOr(verbosity <= currentGlobalVerbosity)] *)
Definition spec_shouldEmit (g : globals) (K : type_info) (C : Z) : bool :=
  default (bool_decide (C ≤ g_logVerbosity g)) (isForced g K).

(** "concatenates every entry from outermost to innermost, each immediately
    preceded by separator" *)
Fixpoint spec_join (separator : string) (stack : list string) : string :=
  match stack with
  | [] => ""
  | entry :: inner => separator +:+ entry +:+ spec_join separator inner
  end.

(** The text of the time field: what [strftime] left in [buf], or nothing
    when it returned 0. *)
Definition time_field (E : Env) : string :=
  let r := strftime E 24 "%X" (localtime E (system_clock_now E)) in
  if bool_decide (r.1 = 0%nat) then "" else cstr (r.2).

(** The parts of the formatted output line, in the order of the
    specification: label, separator, time, separator, thread name, context
    path, trailing marker. *)
Definition spec_prefix_parts (E : Env) (th : thread) (_id : string) : list string :=
  [ _id; c_begin E; time_field E; c_sep1 E; getThreadName E th;
    spec_join (c_sep2 E) (logContexts th); c_end E ].

Definition held_only_for_map_access (cs : list call) : Prop :=
  Forall (λ c, is_map_access c = true) (calls_under x_logOverride false cs).

(** The thread name property as the specification words it, for one
    environment, part by part: what [getThreadName] returns after
    [setThreadName n] is [n] or a prefix of [n]; a thread that never set a
    name is called "main" when it is the initial thread, and "<unknown>"
    otherwise. *)
Definition spec_set_then_get (E : Env) : Prop :=
  ∀ n th, ∃ rest, n = getThreadName E (setThreadName E n th) +:+ rest.

Definition spec_initial_thread_main (E : Env) : Prop :=
  ∀ kname, getThreadName E (main_thread kname) = "main".

Definition spec_other_thread_unknown (E : Env) : Prop :=
  ∀ kname, getThreadName E (thread_start kname) = "<unknown>".

Definition spec_thread_names (E : Env) : Prop :=
  spec_set_then_get E ∧ spec_initial_thread_main E ∧ spec_other_thread_unknown E.

(** ** Reference environments *)

Definition digit (n : Z) : ascii := ascii_of_nat (48 + Z.to_nat (n `mod` 10)).

Definition two_digits (n : Z) : string :=
  String (digit (n `div` 10)) (String (digit n) "").

Definition hh_mm_ss (t : tm) : string :=
  two_digits (tm_hour t) +:+ ":" +:+ two_digits (tm_min t) +:+ ":"
  +:+ two_digits (tm_sec t).

Definition filler : ascii := "?"%char.

(** [strftime] in the "C" locale, where [%X] stands for [%H:%M:%S]: eight
    characters and the terminating NUL, when they fit. *)
Definition strftime_C (max : nat) (fmt : string) (t : tm) : nat * list ascii :=
  if bool_decide (fmt = "%X") && bool_decide (8 < max)%nat then
    (8%nat, take max (String.list_ascii_of_string (hh_mm_ss t)
                      ++ NUL :: replicate max filler))
  else (0%nat, replicate max filler).

(** A clock whose formatting fails. *)
Definition strftime_failing (max : nat) (fmt : string) (t : tm) : nat * list ascii :=
  (0%nat, replicate max filler).

(** The thread names of Linux: at most 15 characters; a longer name is
    refused and the old one stays. *)
Definition linux_getname (kname : string) (len : nat) : list ascii :=
  if bool_decide (String.length kname < len)%nat then
    take (S len) (String.list_ascii_of_string kname ++ NUL :: replicate len filler)
  else replicate (S len) filler.

Definition linux_setname (_n kname : string) : string :=
  if bool_decide (String.length _n ≤ 15)%nat then _n else kname.

Definition seconds_of_day (rawTime : Z) : tm :=
  {| tm_sec := rawTime `mod` 60; tm_min := (rawTime `div` 60) `mod` 60;
     tm_hour := (rawTime `div` 3600) `mod` 24;
     tm_mday := 1; tm_mon := 0; tm_year := 70;
     tm_wday := 4; tm_yday := 0; tm_isdst := 0 |}.

Definition sample_env (p : platform)
    (fmt_time : nat → string → tm → nat * list ascii) : Env :=
  {| EthReset := "[0m"; EthBlack := "[30m"; EthNavy := "[34m";
     EthTeal := "[36m"; EthViolet := "[35m";
     target := p;
     system_clock_now := 45296;
     localtime := seconds_of_day;
     strftime := fmt_time;
     pthread_getname_np := linux_getname;
     pthread_setname_np := linux_setname |}.

Definition linux_env : Env := sample_env Linux strftime_C.
Definition other_env : Env := sample_env Other strftime_C.
Definition failing_clock_env : Env := sample_env Linux strftime_failing.

(** A thread on Linux that the kernel calls by the program's name. *)
Definition miner_main : thread := main_thread "nsfminer".

Definition Warn_info : type_info := 1%positive.
Definition Note_info : type_info := 2%positive.

Definition globals_of (V : Z) (table : gmap positive bool) : globals :=
  {| g_logVerbosity := V; s_logOverride := table;
     g_logPost := simpleDebugOut linux_env |}.

(** Concatenation of the parts of a line, first part first. *)
Definition cat (parts : list string) : string := foldr String.append "" parts.

(** ** The channel labels *)

Inductive channel : Type :=
| LogChannel | LeftChannel | RightChannel | WarnChannel | NoteChannel | DebugChannel.

(** The colour macros of the labels, from the header ([EthNavy] is in
    [Env]). *)
Record Colours : Type := {
  EthGray : string;
  EthGreen : string;
  EthOnRed : string;
  EthBlackBold : string;
  EthBlue : string;
  EthWhite : string
}.

(** [LogChannel::name()], [LeftChannel::name()], ...: a colour and a glyph,
    the glyph in ASCII under [_WIN32]. *)
Definition channel_name (E : Env) (P : Colours) (c : channel) : string :=
  match target E with
  | Windows =>
      match c with
      | LogChannel => EthGray P +:+ "..."
      | LeftChannel => EthNavy E +:+ "<--"
      | RightChannel => EthGreen P +:+ "-->"
      | WarnChannel => EthOnRed P +:+ EthBlackBold P +:+ "  X"
      | NoteChannel => EthBlue P +:+ "  i"
      | DebugChannel => EthWhite P +:+ "  D"
      end
  | _ =>
      match c with
      | LogChannel => EthGray P +:+ "···"
      | LeftChannel => EthNavy E +:+ "◀▬▬"
      | RightChannel => EthGreen P +:+ "▬▬▶"
      | WarnChannel => EthOnRed P +:+ EthBlackBold P +:+ "  ✘"
      | NoteChannel => EthBlue P +:+ "  ℹ"
      | DebugChannel => EthWhite P +:+ "  ◇"
      end
  end.

(** ** Sequences of calls *)

(** A thread pushes the contexts [ns], first one first. *)
Definition push_all (ns : list string) (th : thread) : thread :=
  fold_left (λ th _n, ThreadContext.push _n th) ns th.

(** A thread pops [k] times. *)
Fixpoint pop_n (k : nat) (th : thread) : option thread :=
  match k with
  | O => Some th
  | S k' => th' ← ThreadContext.pop th; pop_n k' th'
  end.

(** A thread hands the lines, each with its tag, to [simpleDebugOut], one
    after the other. *)
Fixpoint post_lines (E : Env) (lines : list (string * string)) : Tr unit :=
  match lines with
  | [] => mret tt
  | line :: rest => simpleDebugOut E (line.1) (line.2);; post_lines E rest
  end.

(** What the calls write to the error stream. *)
Fixpoint cerr_output (cs : list call) : string :=
  match cs with
  | [] => ""
  | cerr_write s :: cs' => s +:+ cerr_output cs'
  | _ :: cs' => cerr_output cs'
  end.

(** What the calls hand to the debugger ([OutputDebugStringA]). *)
Fixpoint debug_output (cs : list call) : string :=
  match cs with
  | [] => ""
  | OutputDebugStringA s :: cs' => s +:+ debug_output cs'
  | _ :: cs' => debug_output cs'
  end.

(** The locks of one thread, for mutexes that are not reentrant: [held] is
    the mutex the thread holds, if any.  A [lock] while a mutex is held (the
    same one or another) and an [unlock] of a mutex that is not the one held
    are refused; otherwise the mutex held after the calls. *)
Fixpoint locks_ok (held : option mutex) (cs : list call) : option (option mutex) :=
  match cs with
  | [] => Some held
  | lock m :: cs' =>
      match held with
      | None => locks_ok (Some m) cs'
      | Some _ => None
      end
  | unlock m :: cs' =>
      if decide (held = Some m) then locks_ok None cs' else None
  | _ :: cs' => locks_ok held cs'
  end.

Definition is_output (c : call) : bool :=
  match c with
  | call_g_logPost _ _ | cerr_write _ | OutputDebugStringA _ => true
  | _ => false
  end.

Fixpoint last_char (s : string) : option ascii :=
  match s with
  | EmptyString => None
  | String c s' =>
      match s' with
      | EmptyString => Some c
      | String _ _ => last_char s'
      end
  end.

Definition sum_lengths (v : list string) : nat :=
  foldr (λ i n, (String.length i + n)%nat) 0%nat v.

Definition sample_colours : Colours :=
  {| EthGray := "[90m"; EthGreen := "[32m"; EthOnRed := "[41m";
     EthBlackBold := "[1;30m"; EthBlue := "[94m"; EthWhite := "[37m" |}.

Definition windows_env : Env := sample_env Windows strftime_C.

(** * Properties *)

(** ** Machine integers *)

Lemma Int32_to_unsigned_range i : Int32.unsigned_range (Int32.to_unsigned i).
Proof.
  unfold Int32.unsigned_range, Int32.to_unsigned. apply Z.mod_pos_bound. lia.
Qed.

Lemma Int32_to_int_range u : Int32.int_range (Int32.to_int u).
Proof.
  unfold Int32.int_range, Int32.to_int.
  pose proof (Z.mod_pos_bound u (2 ^ 32)) as Hr.
  case_bool_decide; lia.
Qed.

(** An [int] passed through an [unsigned] parameter and cast back is
    unchanged. *)
Lemma Int32_to_int_to_unsigned i :
  Int32.int_range i → Int32.to_int (Int32.to_unsigned i) = i.
Proof.
  unfold Int32.int_range, Int32.to_int, Int32.to_unsigned. intros Hi.
  rewrite Z.mod_mod by lia.
  destruct (decide (0 ≤ i)) as [Hpos|Hneg].
  - rewrite Z.mod_small by lia. case_bool_decide; lia.
  - replace (i `mod` 2 ^ 32) with (i + 2 ^ 32).
    + case_bool_decide; lia.
    + apply Z.mod_unique with (q := -1); lia.
Qed.

Lemma Int32_to_int_small u : 0 ≤ u < 2 ^ 31 → Int32.to_int u = u.
Proof.
  unfold Int32.to_int. intros Hu. rewrite Z.mod_small by lia.
  case_bool_decide; lia.
Qed.

Lemma Int32_to_unsigned_to_int u :
  Int32.unsigned_range u → Int32.to_unsigned (Int32.to_int u) = u.
Proof.
  unfold Int32.unsigned_range, Int32.to_int, Int32.to_unsigned. intros Hu.
  rewrite (Z.mod_small u) by lia.
  case_bool_decide.
  - apply Z.mod_small; lia.
  - symmetry. apply Z.mod_unique with (q := -1); lia.
Qed.

(** Every value of an [unsigned] parameter is the image of one [int], the
    one the cast gives back. *)
Lemma Int32_unsigned_is_image u :
  Int32.unsigned_range u →
  ∃ i, Int32.int_range i ∧ Int32.to_unsigned i = u ∧ Int32.to_int u = i.
Proof.
  intros Hu. exists (Int32.to_int u).
  split; [apply Int32_to_int_range|]. split; [by apply Int32_to_unsigned_to_int|done].
Qed.

(** ** Strings *)

Lemma append_cons (x : ascii) (a b : string) :
  String x a +:+ b = String x (a +:+ b).
Proof. reflexivity. Qed.

Lemma append_assoc (a b c : string) : (a +:+ b) +:+ c = a +:+ (b +:+ c).
Proof.
  induction a as [|x a IH]; [reflexivity|].
  by rewrite !append_cons, IH.
Qed.

Lemma append_empty_r (a : string) : a +:+ "" = a.
Proof.
  induction a as [|x a IH]; [reflexivity|].
  by rewrite append_cons, IH.
Qed.

Lemma append_eq_empty (a b : string) : a +:+ b = "" → a = "" ∧ b = "".
Proof. destruct a; [tauto | rewrite append_cons; discriminate]. Qed.

Lemma put_chain (s1 s2 s3 s4 s5 s6 s7 : string) :
  "" << s1 << s2 << s3 << s4 << s5 << s6 << s7 = cat [s1; s2; s3; s4; s5; s6; s7].
Proof.
  unfold put, cat. cbn [foldr]. change ("" +:+ s1) with s1.
  by rewrite append_empty_r, !append_assoc.
Qed.

Lemma cstr_store_NUL (buf : list ascii) : cstr (<[0%nat := NUL]> buf) = "".
Proof. by destruct buf. Qed.

Lemma cstr_terminated (s : string) (rest : list ascii) :
  Forall (λ c, c ≠ NUL) (String.list_ascii_of_string s) →
  cstr (String.list_ascii_of_string s ++ NUL :: rest) = s.
Proof.
  induction s as [|c s IH]; simpl; intros Hs.
  - reflexivity.
  - inversion Hs as [|? ? Hc Hs']; subst.
    rewrite decide_False by done. by rewrite IH.
Qed.

(** ** The decision *)

Lemma emit_condition_unfold it _v V :
  emit_condition it _v V =
    match it with
    | Some forced => forced
    | None => bool_decide (Int32.to_int _v ≤ V)
    end.
Proof. unfold emit_condition. destruct it as [[]|]; reflexivity. Qed.

(** On the parameter [_v] as the constructor receives it: the entry of the
    table when there is one, and else the comparison of [(int)_v]. *)
Lemma shouldEmit_unfold g _info _v :
  shouldEmit g _info _v =
    default (bool_decide (Int32.to_int _v ≤ g_logVerbosity g)) (isForced g _info).
Proof.
  unfold shouldEmit, isForced. rewrite emit_condition_unfold.
  by destruct (s_logOverride g !! _info).
Qed.

Lemma shouldEmit_spec g K C :
  Int32.int_range C →
  shouldEmit g K (Int32.to_unsigned C) = spec_shouldEmit g K C.
Proof.
  intros HC. rewrite shouldEmit_unfold. unfold spec_shouldEmit.
  by rewrite Int32_to_int_to_unsigned.
Qed.

(** ** The constructor *)

Lemma ctor_suppressed E g th _id _info _v _autospacing :
  shouldEmit g _info _v = false →
  LogOutputStreamBase_ctor E g th _id _info _v _autospacing =
    Traced {| m_autospacing := _autospacing; m_verbosity := _v; m_sstr := "" |}
           [lock x_logOverride; map_find _info; unlock x_logOverride].
Proof.
  unfold shouldEmit, LogOutputStreamBase_ctor. intros Hno.
  cbn. rewrite Hno. reflexivity.
Qed.

Lemma ctor_emitting E g th _id _info _v _autospacing :
  shouldEmit g _info _v = true →
  LogOutputStreamBase_ctor E g th _id _info _v _autospacing =
    let r := strftime E 24 "%X" (localtime E (system_clock_now E)) in
    let buf := if bool_decide (r.1 = 0%nat) then <[0%nat := NUL]> (r.2) else r.2 in
    Traced {| m_autospacing := _autospacing; m_verbosity := _v;
              m_sstr := "" << _id << c_begin E << cstr buf << c_sep1 E
                           << getThreadName E th
                           << (ThreadContext.join (c_sep2 E) th).1 << c_end E |}
           [lock x_logOverride; map_find _info; call_now; call_localtime;
            call_strftime; call_getThreadName; call_join; unlock x_logOverride].
Proof.
  unfold shouldEmit, LogOutputStreamBase_ctor. intros Hyes.
  cbn. rewrite Hyes. reflexivity.
Qed.

Lemma c_begin_not_empty E (s : string) : c_begin E +:+ s ≠ "".
Proof. unfold c_begin. rewrite !append_cons. discriminate. Qed.

(** The constructor writes the prefix exactly when the condition holds. *)
Lemma ctor_formats_iff E g th _id _info _v _autospacing :
  m_sstr (result (LogOutputStreamBase_ctor E g th _id _info _v _autospacing)) ≠ ""
  ↔ shouldEmit g _info _v = true.
Proof.
  destruct (shouldEmit g _info _v) eqn:Hd.
  - rewrite ctor_emitting by done. cbn [result m_sstr].
    rewrite put_chain. unfold cat. cbn [foldr]. split; [done|].
    intros _ Hempty. apply append_eq_empty in Hempty as [_ Hempty].
    by apply c_begin_not_empty in Hempty.
  - rewrite ctor_suppressed by done. cbn. split; [done | discriminate].
Qed.

(** ** C1 *)

(** C1: a log statement of a channel with verbosity [C] and type identity
    [K] emits, under the global verbosity [g_logVerbosity g], exactly when
    the override table's entry for [K] is true or, there being no entry,
    [C <= g_logVerbosity g]: the decision of the constructor is
    [isForced(K).unwrapOr(C <= V)], and the constructor writes the prefix
    exactly when that decision is true.  The verbosity of a channel is an
    [int]; it reaches the constructor through the parameter [unsigned _v],
    the same number when it is not negative, and is read back by the cast
    [(int)_v]. *)
Theorem C1_decision_rule E g th _id K C _autospacing :
  Int32.int_range C →
  let _v := Int32.to_unsigned C in
  shouldEmit g K _v = spec_shouldEmit g K C
  ∧ (shouldEmit g K _v = true ↔
       match isForced g K with
       | Some forced => forced = true
       | None => C ≤ g_logVerbosity g
       end)
  ∧ (m_sstr (result (LogOutputStreamBase_ctor E g th _id K _v _autospacing)) ≠ ""
     ↔ shouldEmit g K _v = true)
  ∧ (0 ≤ C → _v = C).
Proof.
  intros HC _v. subst _v. split; [by apply shouldEmit_spec|].
  split; [|split; [apply ctor_formats_iff|]].
  - rewrite shouldEmit_spec by done. unfold spec_shouldEmit.
    destruct (isForced g K) as [forced|]; cbn; [done|].
    apply bool_decide_eq_true.
  - intros Hpos. unfold Int32.int_range in HC. unfold Int32.to_unsigned.
    apply Z.mod_small. lia.
Qed.

Lemma C1_decision_rule_witness :
  Int32.int_range 6
  ∧ shouldEmit (globals_of 5 {[Note_info := true]}) Note_info (Int32.to_unsigned 6)
    = spec_shouldEmit (globals_of 5 {[Note_info := true]}) Note_info 6.
Proof.
  assert (H6 : Int32.int_range 6) by (unfold Int32.int_range; lia).
  split; [exact H6|].
  exact (proj1 (C1_decision_rule linux_env (globals_of 5 {[Note_info := true]})
                  miner_main "  i" Note_info 6 true H6)).
Defined.

(** ** C2 *)

Lemma shouldEmit_override K enabled g _v :
  shouldEmit (override K enabled g) K _v = enabled.
Proof.
  rewrite shouldEmit_unfold. unfold isForced, override. cbn.
  by rewrite lookup_insert_eq.
Qed.

Lemma shouldEmit_clearOverride K g _v :
  shouldEmit (clearOverride K g) K _v =
    bool_decide (Int32.to_int _v ≤ g_logVerbosity g).
Proof.
  rewrite shouldEmit_unfold. unfold isForced, clearOverride. cbn.
  by rewrite lookup_delete_eq.
Qed.

(** The override operations leave the other channels as they are. *)
Lemma shouldEmit_override_other K K' enabled g _v :
  K ≠ K' →
  shouldEmit (override K enabled g) K' _v = shouldEmit g K' _v
  ∧ shouldEmit (clearOverride K g) K' _v = shouldEmit g K' _v.
Proof.
  intros Hne. rewrite !shouldEmit_unfold. unfold isForced, override, clearOverride.
  cbn. by rewrite lookup_insert_ne, lookup_delete_ne.
Qed.

(** C2: for every channel identity [K], every global verbosity (that of
    [g]) and every channel verbosity [C]: after [override(K, true)] a
    statement on [K] emits, after [override(K, false)] it does not, and
    after [clearOverride(K)], also when an override had been set before, it
    emits iff [C <= g_logVerbosity g].  This holds of the decision and of
    the constructor run in the state the operation leaves: it writes the
    prefix in the first case, leaves the stream empty in the second, and
    writes the prefix iff [C <= g_logVerbosity g] in the third. *)
Theorem C2_override_then_clear E g th _id K C _autospacing :
  Int32.int_range C →
  let _v := Int32.to_unsigned C in
  let prefix_in g' :=
    m_sstr (result (LogOutputStreamBase_ctor E g' th _id K _v _autospacing)) in
  shouldEmit (override K true g) K _v = true
  ∧ shouldEmit (override K false g) K _v = false
  ∧ shouldEmit (clearOverride K g) K _v = bool_decide (C ≤ g_logVerbosity g)
  ∧ (∀ enabled, shouldEmit (clearOverride K (override K enabled g)) K _v
                = bool_decide (C ≤ g_logVerbosity g))
  ∧ prefix_in (override K true g) ≠ ""
  ∧ prefix_in (override K false g) = ""
  ∧ (prefix_in (clearOverride K g) ≠ "" ↔ C ≤ g_logVerbosity g)
  ∧ (∀ enabled, prefix_in (clearOverride K (override K enabled g)) ≠ ""
                ↔ C ≤ g_logVerbosity g).
Proof.
  intros HC _v prefix_in. subst _v prefix_in. cbn beta.
  assert (∀ g', shouldEmit (clearOverride K g') K (Int32.to_unsigned C)
                = bool_decide (C ≤ g_logVerbosity g')) as Hclear.
  { intros g'. by rewrite shouldEmit_clearOverride, Int32_to_int_to_unsigned. }
  split; [apply shouldEmit_override|]. split; [apply shouldEmit_override|].
  split; [apply Hclear|].
  split; [intros enabled; exact (Hclear (override K enabled g))|].
  split; [|split; [|split]].
  - apply ctor_formats_iff, shouldEmit_override.
  - rewrite ctor_suppressed by apply shouldEmit_override. reflexivity.
  - rewrite ctor_formats_iff, Hclear. apply bool_decide_eq_true.
  - intros enabled. rewrite ctor_formats_iff, Hclear. cbn [override g_logVerbosity].
    apply bool_decide_eq_true.
Qed.

Lemma C2_override_then_clear_witness :
  Int32.int_range 9
  ∧ shouldEmit (override Warn_info true (globals_of 3 ∅)) Warn_info
      (Int32.to_unsigned 9) = true
  ∧ m_sstr (result (LogOutputStreamBase_ctor linux_env
                      (override Warn_info true (globals_of 3 ∅)) miner_main "  X"
                      Warn_info (Int32.to_unsigned 9) true)) ≠ ""
  ∧ m_sstr (result (LogOutputStreamBase_ctor linux_env
                      (override Warn_info false (globals_of 3 ∅)) miner_main "  X"
                      Warn_info (Int32.to_unsigned 9) true)) = "".
Proof.
  assert (H9 : Int32.int_range 9) by (unfold Int32.int_range; lia).
  pose proof (C2_override_then_clear linux_env (globals_of 3 ∅) miner_main "  X"
                Warn_info 9 true H9) as (Hon & _ & _ & _ & Hwrites & Hsilent & _).
  split; [exact H9|]. split; [exact Hon|]. split; [exact Hwrites | exact Hsilent].
Defined.

(** ** C10 *)

(** C10: the static initialiser sets the global verbosity to 5 and leaves
    the override table empty; as long as the verbosity is the initial one, a
    statement on a channel without an override emits iff the verbosity of
    the channel is at most 5. *)
Theorem C10_initial_verbosity E g th _id K C _autospacing :
  g_logVerbosity (static_init E) = 5
  ∧ isForced (static_init E) K = None
  ∧ (g_logVerbosity g = g_logVerbosity (static_init E) →
     isForced g K = None →
     Int32.int_range C →
     let _v := Int32.to_unsigned C in
     (shouldEmit g K _v = true ↔ C ≤ 5)
     ∧ (m_sstr (result (LogOutputStreamBase_ctor E g th _id K _v _autospacing)) ≠ ""
        ↔ C ≤ 5)).
Proof.
  split; [reflexivity|]. split; [apply lookup_empty|].
  intros HV Hnone HC _v. subst _v.
  assert (shouldEmit g K (Int32.to_unsigned C) = true ↔ C ≤ 5) as Hiff.
  { rewrite shouldEmit_spec by done. unfold spec_shouldEmit.
    rewrite Hnone, HV. cbn. apply bool_decide_eq_true. }
  split; [exact Hiff|]. by rewrite ctor_formats_iff.
Qed.

Lemma C10_initial_verbosity_witness :
  (shouldEmit (static_init linux_env) Warn_info (Int32.to_unsigned 5) = true ↔ 5 ≤ 5)
  ∧ (shouldEmit (static_init linux_env) Warn_info (Int32.to_unsigned 6) = true ↔ 6 ≤ 5).
Proof.
  assert (H5 : Int32.int_range 5) by (unfold Int32.int_range; lia).
  assert (H6 : Int32.int_range 6) by (unfold Int32.int_range; lia).
  split.
  - exact (proj1 (proj2 (proj2 (C10_initial_verbosity linux_env (static_init linux_env)
             miner_main "  X" Warn_info 5 true)) eq_refl eq_refl H5)).
  - exact (proj1 (proj2 (proj2 (C10_initial_verbosity linux_env (static_init linux_env)
             miner_main "  X" Warn_info 6 true)) eq_refl eq_refl H6)).
Defined.

(** ** C3 *)

(** The loop of [join], started with any [ret]. *)
Lemma join_loop (_prior : string) (v : list string) (ret : string) :
  fold_left (λ ret i, ret +:+ (_prior +:+ i)) v ret = ret +:+ spec_join _prior v.
Proof.
  revert ret. induction v as [|i v IH]; intros ret; cbn [fold_left spec_join].
  - by rewrite append_empty_r.
  - by rewrite IH, !append_assoc.
Qed.

Lemma join_spec (_prior : string) (th : thread) :
  (ThreadContext.join _prior th).1 = spec_join _prior (logContexts th).
Proof.
  unfold ThreadContext.join, ThreadLocalLogContext.join. cbn [fst].
  by rewrite join_loop.
Qed.

Lemma pop_back_push_back {A} (x : A) (v : list A) :
  vector.pop_back (vector.push_back x v) = Some v.
Proof.
  unfold vector.pop_back, vector.push_back.
  destruct (v ++ [x]) eqn:Hv.
  - by destruct v.
  - by rewrite <- Hv, removelast_last.
Qed.

Lemma pop_push (_n : string) (th : thread) :
  ThreadContext.pop (ThreadContext.push _n th) = Some th.
Proof.
  unfold ThreadContext.pop, ThreadContext.push, ThreadLocalLogContext.pop,
    ThreadLocalLogContext.push.
  cbn. rewrite pop_back_push_back. by destruct th.
Qed.

(** C3: [join(p)] returns the concatenation over the stack, outermost entry
    first, of [p] followed by the entry; it returns the empty string on an
    empty stack; it leaves the state of the thread as it is.  After
    [push("a")] and [push("b")] on an empty stack [join("/")] is ["/a/b"],
    and after one [pop()] it is ["/a"]. *)
Theorem C3_join (p : string) (th : thread) :
  (ThreadContext.join p th).1 = spec_join p (logContexts th)
  ∧ (logContexts th = [] → (ThreadContext.join p th).1 = "")
  ∧ (ThreadContext.join p th).2 = th
  ∧ (logContexts th = [] →
     let th2 := ThreadContext.push "b" (ThreadContext.push "a" th) in
     (ThreadContext.join "/" th2).1 = "/a/b"
     ∧ ∃ th1, ThreadContext.pop th2 = Some th1
              ∧ (ThreadContext.join "/" th1).1 = "/a").
Proof.
  split; [apply join_spec|]. split; [|split; [reflexivity|]].
  - intros Hempty. by rewrite join_spec, Hempty.
  - intros Hempty th2. subst th2. split.
    + rewrite join_spec. cbn. by rewrite Hempty.
    + exists (ThreadContext.push "a" th). split; [apply pop_push|].
      rewrite join_spec. cbn. by rewrite Hempty.
Qed.

Lemma C3_join_witness :
  (ThreadContext.join "/"
     (ThreadContext.push "b" (ThreadContext.push "a" miner_main))).1 = "/a/b".
Proof.
  exact (proj1 (proj2 (proj2 (proj2 (C3_join "|" miner_main))) eq_refl)).
Defined.

(** ** C4 *)

Lemma pop_back_nonempty {A} (v : list A) :
  v ≠ [] → ∃ rest innermost, v = rest ++ [innermost] ∧ vector.pop_back v = Some rest.
Proof.
  intros Hne. destruct (exists_last Hne) as (rest & innermost & ->).
  exists rest, innermost. split; [reflexivity|].
  apply (pop_back_push_back innermost rest).
Qed.

(** C4: on a context stack that is not empty, [ThreadContext::pop] removes
    the innermost entry, the one pushed last, and leaves the entries below
    it and the rest of the thread's state as they are; in particular it
    undoes a [push].  It calls [pop_back] without a test, so that on an empty
    stack its behaviour is undefined. *)
Theorem C4_pop (th : thread) :
  (logContexts th ≠ [] →
   ∃ rest innermost,
     logContexts th = rest ++ [innermost]
     ∧ ThreadContext.pop th =
         Some {| ThreadLocalLogName_name := ThreadLocalLogName_name th;
                 logContexts := rest;
                 kernel_name := kernel_name th |})
  ∧ (∀ _n, ThreadContext.pop (ThreadContext.push _n th) = Some th)
  ∧ (logContexts th = [] → ThreadContext.pop th = None).
Proof.
  split; [|split; [intros; apply pop_push|]].
  - intros Hne. destruct (pop_back_nonempty _ Hne) as (rest & innermost & Hv & Hpop).
    exists rest, innermost. split; [exact Hv|].
    unfold ThreadContext.pop, ThreadLocalLogContext.pop. by rewrite Hpop.
  - intros Hempty. unfold ThreadContext.pop, ThreadLocalLogContext.pop.
    by rewrite Hempty.
Qed.

Lemma C4_pop_witness :
  (∃ rest innermost,
     logContexts (ThreadContext.push "db-query" (ThreadContext.push "request-42" miner_main))
       = rest ++ [innermost]
     ∧ ThreadContext.pop
         (ThreadContext.push "db-query" (ThreadContext.push "request-42" miner_main))
       = Some {| ThreadLocalLogName_name := Some "main";
                 logContexts := rest;
                 kernel_name := "nsfminer" |})
  ∧ ThreadContext.pop miner_main = None.
Proof.
  split.
  - apply (proj1 (C4_pop (ThreadContext.push "db-query"
                             (ThreadContext.push "request-42" miner_main)))).
    discriminate.
  - exact (proj2 (proj2 (C4_pop miner_main)) eq_refl).
Defined.

(** ** C5 *)

(** C5: when the decision of a log statement is not to emit, the constructor
    writes nothing to the stream and calls nothing but the lookup in the
    override table, under the lock; no time, thread name or context is
    fetched; and the whole statement ends without a call of the output
    sink. *)
Theorem C5_suppressed_statement E g th _id K _v _autospacing message :
  shouldEmit g K _v = false →
  let ctor := LogOutputStreamBase_ctor E g th _id K _v _autospacing in
  m_sstr (result ctor) = ""
  ∧ calls ctor = [lock x_logOverride; map_find K; unlock x_logOverride]
  ∧ calls (log_statement E g th _id K _v _autospacing message) = calls ctor
  ∧ Forall (λ c, is_post c = false)
      (calls (log_statement E g th _id K _v _autospacing message)).
Proof.
  intros Hno ctor. subst ctor.
  assert (calls (log_statement E g th _id K _v _autospacing message)
          = [lock x_logOverride; map_find K; unlock x_logOverride]) as Hcalls.
  { unfold log_statement. rewrite ctor_suppressed by done.
    cbn. rewrite Hno. reflexivity. }
  rewrite Hcalls, ctor_suppressed by done. cbn [result calls m_sstr].
  repeat split. repeat constructor.
Qed.

Lemma C5_suppressed_statement_witness :
  calls (log_statement linux_env (globals_of 3 ∅) miner_main "  X" Warn_info 5 true
           "share accepted")
  = [lock x_logOverride; map_find Warn_info; unlock x_logOverride].
Proof.
  pose proof (C5_suppressed_statement linux_env (globals_of 3 ∅) miner_main "  X"
                Warn_info 5 true "share accepted" eq_refl) as (_ & Hctor & Hstmt & _).
  rewrite Hstmt. exact Hctor.
Defined.

(** ** C6 *)

(** C6: when [strftime] returns 0 the constructor of an emitting statement
    stores a NUL in [buf[0]], so that the time field of the prefix is the
    empty string whatever [strftime] left in the array; the constructor
    returns as for any emitting statement, after the same calls, with the
    other parts of the prefix in place. *)
Theorem C6_strftime_fails E g th _id K _v _autospacing :
  (strftime E 24 "%X" (localtime E (system_clock_now E))).1 = 0%nat →
  shouldEmit g K _v = true →
  let ctor := LogOutputStreamBase_ctor E g th _id K _v _autospacing in
  m_sstr (result ctor)
    = cat [_id; c_begin E; ""; c_sep1 E; getThreadName E th;
           spec_join (c_sep2 E) (logContexts th); c_end E]
  ∧ calls ctor = [lock x_logOverride; map_find K; call_now; call_localtime;
                  call_strftime; call_getThreadName; call_join;
                  unlock x_logOverride].
Proof.
  intros Hfail Hyes ctor. subst ctor.
  rewrite ctor_emitting by done. cbn [result calls m_sstr].
  split; [|reflexivity].
  rewrite bool_decide_eq_true_2 by done.
  by rewrite cstr_store_NUL, put_chain, join_spec.
Qed.

Lemma C6_strftime_fails_witness :
  m_sstr (result (LogOutputStreamBase_ctor failing_clock_env (globals_of 5 ∅)
                    miner_main "  X" Warn_info 0 true))
  = cat ["  X"; c_begin failing_clock_env; ""; c_sep1 failing_clock_env;
         "nsfminer"; ""; c_end failing_clock_env].
Proof.
  exact (proj1 (C6_strftime_fails failing_clock_env (globals_of 5 ∅) miner_main "  X"
                  Warn_info 0 true eq_refl eq_refl)).
Defined.

(** ** C7 *)

Lemma cstr_length_le (a : list ascii) (i : nat) :
  a !! i = Some NUL → (String.length (cstr a) ≤ i)%nat.
Proof.
  revert i. induction a as [|c a IH]; intros i Hi; [done|].
  cbn [cstr]. destruct (decide (c = NUL)) as [->|Hc]; cbn [String.length]; [lia|].
  destruct i as [|i]; cbn in Hi.
  - congruence.
  - apply IH in Hi. lia.
Qed.

Lemma list_ascii_length (s : string) :
  length (String.list_ascii_of_string s) = String.length s.
Proof. induction s as [|c s IH]; cbn; [done | by rewrite IH]. Qed.

(** The array read by [getThreadName], [buffer[127]] set to NUL, when the
    operating system has written a name and its NUL. *)
Lemma cstr_buffer_terminated (name : string) (rest : list ascii) :
  Forall (λ c, c ≠ NUL) (String.list_ascii_of_string name) →
  (String.length name ≤ 127)%nat →
  cstr (<[127%nat := NUL]> (String.list_ascii_of_string name ++ NUL :: rest)) = name.
Proof.
  intros Hname Hlen. pose proof (list_ascii_length name) as Hl.
  rewrite insert_app_r_alt by lia.
  destruct (127 - length (String.list_ascii_of_string name))%nat as [|k];
    by apply cstr_terminated.
Qed.

(** C7, as the code has it.  Where the name is the thread-local slot (not
    Linux, not macOS), [getThreadName] after [setThreadName(n)] returns [n],
    and a thread that never set a name is called "main" when it is the
    initial thread and "<unknown>" otherwise.  On Linux and macOS the name
    is the one the operating system holds for the thread.  After
    [setThreadName(n)], [getThreadName] returns the name the system holds
    after [pthread_setname_np], reported with its NUL and of at most 127
    characters: [n] when the system stored [n], a prefix of [n] when it
    stored that, the name before when it refused [n].  A thread that never
    set a name, the initial one or another, is called by the name the
    system holds for it; the slot, and the "main" the static initialiser
    stores in it, are not read.  The name returned has at most 127
    characters. *)
Theorem C7_thread_name E :
  (target E = Windows ∨ target E = Other →
   (∀ n th, getThreadName E (setThreadName E n th) = n)
   ∧ (∀ kname, getThreadName E (main_thread kname) = "main")
   ∧ (∀ kname, getThreadName E (thread_start kname) = "<unknown>"))
  ∧ (target E = Linux ∨ target E = Apple →
     (∀ n th stored rest,
        pthread_getname_np E (pthread_setname_np E n (kernel_name th)) 127
        = String.list_ascii_of_string stored ++ NUL :: rest →
        Forall (λ c, c ≠ NUL) (String.list_ascii_of_string stored) →
        (String.length stored ≤ 127)%nat →
        getThreadName E (setThreadName E n th) = stored)
     ∧ (∀ kname stored rest,
        pthread_getname_np E kname 127
        = String.list_ascii_of_string stored ++ NUL :: rest →
        Forall (λ c, c ≠ NUL) (String.list_ascii_of_string stored) →
        (String.length stored ≤ 127)%nat →
        getThreadName E (main_thread kname) = stored
        ∧ getThreadName E (thread_start kname) = stored)
     ∧ (∀ th th', kernel_name th = kernel_name th' →
                  getThreadName E th = getThreadName E th')
     ∧ (∀ th, length (pthread_getname_np E (kernel_name th) 127) = 128%nat →
              (String.length (getThreadName E th) ≤ 127)%nat)).
Proof.
  split.
  - intros Hslot. unfold getThreadName, setThreadName.
    destruct Hslot as [-> | ->]; repeat split.
  - intros Hos.
    assert (∀ th, getThreadName E th
              = cstr (<[127%nat := NUL]> (pthread_getname_np E (kernel_name th) 127)))
      as Hget.
    { intros th. unfold getThreadName. by destruct Hos as [-> | ->]. }
    assert (∀ n th, kernel_name (setThreadName E n th)
                    = pthread_setname_np E n (kernel_name th)) as Hset.
    { intros n th. unfold setThreadName. by destruct Hos as [-> | ->]. }
    split; [|split; [|split]].
    + intros n th stored rest Hbuf Hstored Hlen.
      rewrite Hget, Hset, Hbuf. by apply cstr_buffer_terminated.
    + intros kname stored rest Hbuf Hstored Hlen.
      rewrite !Hget. cbn [main_thread thread_start ThreadLocalLogName_ctor kernel_name].
      rewrite Hbuf. split; by apply cstr_buffer_terminated.
    + intros th th' Hk. by rewrite !Hget, Hk.
    + intros th Hlen. rewrite Hget. apply cstr_length_le.
      apply list_lookup_insert_eq. lia.
Qed.

Lemma C7_thread_name_witness :
  getThreadName other_env (setThreadName other_env "worker-1" (thread_start "nsfminer"))
    = "worker-1"
  ∧ getThreadName linux_env (setThreadName linux_env "worker-1" miner_main)
    = "worker-1"
  ∧ getThreadName linux_env
      (setThreadName linux_env "a-very-long-worker-name" miner_main)
    = "nsfminer".
Proof.
  split; [|split].
  - exact (proj1 (proj1 (C7_thread_name other_env) (or_intror eq_refl))
             "worker-1" (thread_start "nsfminer")).
  - apply (proj1 (proj2 (C7_thread_name linux_env) (or_introl eq_refl))
             "worker-1" miner_main "worker-1" (replicate 119 filler)).
    + reflexivity.
    + repeat (constructor; [discriminate|]). constructor.
    + cbn. lia.
  - apply (proj1 (proj2 (C7_thread_name linux_env) (or_introl eq_refl))
             "a-very-long-worker-name" miner_main "nsfminer" (replicate 119 filler)).
    + reflexivity.
    + repeat (constructor; [discriminate|]). constructor.
    + cbn. lia.
Defined.

(** On Linux each part of the property of the specification fails.  A name
    of more than 15 characters is refused by the system, so that
    [getThreadName] after [setThreadName] returns the name before, which is
    no prefix of the new one; and a thread that never set a name, the
    initial one or another, is called by the name the kernel holds for it,
    not "main" or "<unknown>". *)
Lemma C7_counterexample :
  ¬ spec_set_then_get linux_env
  ∧ ¬ spec_initial_thread_main linux_env
  ∧ ¬ spec_other_thread_unknown linux_env
  ∧ ¬ spec_thread_names linux_env.
Proof.
  assert (¬ spec_initial_thread_main linux_env) as Hmain.
  { intros Hmain. specialize (Hmain "nsfminer").
    vm_compute in Hmain. discriminate Hmain. }
  split; [|split; [exact Hmain|split]].
  - intros Hset.
    destruct (Hset "a-very-long-worker-name" miner_main) as [rest Hrest].
    change (getThreadName linux_env
              (setThreadName linux_env "a-very-long-worker-name" miner_main))
      with "nsfminer" in Hrest.
    rewrite append_cons in Hrest. discriminate Hrest.
  - intros Hother. specialize (Hother "nsfminer").
    vm_compute in Hother. discriminate Hother.
  - intros (_ & Hall & _). by apply Hmain.
Qed.

(** ** C8 *)

Lemma digit_not_NUL (n : Z) : digit n ≠ NUL.
Proof.
  unfold digit, NUL. intros Heq. apply (f_equal nat_of_ascii) in Heq.
  pose proof (Z.mod_pos_bound n 10) as Hr.
  rewrite nat_ascii_embedding in Heq by lia.
  change (nat_of_ascii zero) with 0%nat in Heq. lia.
Qed.

Lemma cstr_hh_mm_ss (t : tm) (rest : list ascii) :
  cstr (String.list_ascii_of_string (hh_mm_ss t) ++ NUL :: rest) = hh_mm_ss t.
Proof.
  apply cstr_terminated.
  cbv [hh_mm_ss two_digits String.append String.list_ascii_of_string].
  repeat (constructor; [first [apply digit_not_NUL | discriminate]|]).
  constructor.
Qed.

Lemma strftime_C_X (t : tm) :
  strftime_C 24 "%X" t
  = (8%nat, String.list_ascii_of_string (hh_mm_ss t) ++ NUL :: replicate 15 filler).
Proof.
  unfold strftime_C.
  rewrite (bool_decide_eq_true_2 ("%X" = "%X")) by reflexivity.
  rewrite (bool_decide_eq_true_2 (8 < 24)%nat) by lia.
  cbn [andb]. reflexivity.
Qed.

Lemma time_field_C_locale E :
  strftime E = strftime_C →
  time_field E = hh_mm_ss (localtime E (system_clock_now E)).
Proof.
  intros HC. unfold time_field. rewrite HC, strftime_C_X. cbn [fst snd].
  rewrite bool_decide_eq_false_2 by lia. apply cstr_hh_mm_ss.
Qed.

Lemma ctor_time_field E :
  let r := strftime E 24 "%X" (localtime E (system_clock_now E)) in
  cstr (if bool_decide (r.1 = 0%nat) then <[0%nat := NUL]> (r.2) else r.2)
  = time_field E.
Proof.
  cbn zeta. unfold time_field. case_bool_decide; [apply cstr_store_NUL | reflexivity].
Qed.

(** C8: the prefix of an emitting statement is, in this order: the label
    [_id] of the channel, the separator [c_begin], the time field (the
    local time as [strftime] writes it for ["%X"]: hour:minute:second in
    the "C" locale), the separator [c_sep1], the thread name, the context
    path with [c_sep2] before each entry, and the trailing marker
    [c_end]. *)
Theorem C8_prefix_order E g th _id K _v _autospacing :
  shouldEmit g K _v = true →
  m_sstr (result (LogOutputStreamBase_ctor E g th _id K _v _autospacing))
    = cat (spec_prefix_parts E th _id)
  ∧ (strftime E = strftime_C →
     time_field E = hh_mm_ss (localtime E (system_clock_now E))).
Proof.
  intros Hyes. split; [|apply time_field_C_locale].
  rewrite ctor_emitting by done. cbn [result m_sstr].
  by rewrite ctor_time_field, put_chain, join_spec.
Qed.

Lemma C8_prefix_order_witness :
  m_sstr (result (LogOutputStreamBase_ctor linux_env (globals_of 5 ∅)
                    (ThreadContext.push "db-query" miner_main) "  X" Warn_info 0 true))
  = cat ["  X"; c_begin linux_env; "12:34:56"; c_sep1 linux_env; "nsfminer";
         c_sep2 linux_env +:+ "db-query"; c_end linux_env].
Proof.
  exact (proj1 (C8_prefix_order linux_env (globals_of 5 ∅)
                  (ThreadContext.push "db-query" miner_main) "  X" Warn_info 0 true
                  eq_refl)).
Defined.

(** ** C9 *)

(** The calls of the constructor: the lock, the lookup, the formatting when
    the statement emits, the release. *)
Lemma ctor_calls E g th _id K _v _autospacing :
  calls (LogOutputStreamBase_ctor E g th _id K _v _autospacing)
  = lock x_logOverride :: map_find K
    :: (if shouldEmit g K _v
        then [call_now; call_localtime; call_strftime; call_getThreadName; call_join]
        else [])
    ++ [unlock x_logOverride].
Proof.
  destruct (shouldEmit g K _v) eqn:Hd.
  - by rewrite ctor_emitting.
  - by rewrite ctor_suppressed.
Qed.

Lemma ctor_calls_under_lock E g th _id K _v _autospacing :
  calls_under x_logOverride false
    (calls (LogOutputStreamBase_ctor E g th _id K _v _autospacing))
  = map_find K
    :: (if shouldEmit g K _v
        then [call_now; call_localtime; call_strftime; call_getThreadName; call_join]
        else []).
Proof. rewrite ctor_calls. by destruct (shouldEmit g K _v). Qed.

(** C9, as the code has it.  The constructor takes the mutex
    [x_logOverride] once, as its first call and under no lock of its own,
    looks the channel up while it holds the mutex, requests no lock while it
    holds it, and releases it as its last call, when it returns: the mutex is
    held for the lookup and, when the statement emits, for the formatting of
    the prefix as well (clock, [strftime], thread name, context path); it is
    held for the lookup alone only when the statement is suppressed. *)
Theorem C9_lock_scope E g th _id K _v _autospacing :
  let cs := calls (LogOutputStreamBase_ctor E g th _id K _v _autospacing) in
  let formatting :=
    if shouldEmit g K _v
    then [call_now; call_localtime; call_strftime; call_getThreadName; call_join]
    else [] in
  cs = lock x_logOverride :: map_find K :: formatting ++ [unlock x_logOverride]
  ∧ calls_under x_logOverride false cs = map_find K :: formatting
  ∧ filter (λ c, is_map_access c = true) cs
    = filter (λ c, is_map_access c = true) (calls_under x_logOverride false cs)
  ∧ Forall (λ c, is_lock c = false) (calls_under x_logOverride false cs)
  ∧ (shouldEmit g K _v = false → held_only_for_map_access cs).
Proof.
  intros cs formatting. subst cs formatting. unfold held_only_for_map_access.
  rewrite ctor_calls.
  destruct (shouldEmit g K _v); cbn; (split; [reflexivity|]);
    (split; [reflexivity|]); (split; [reflexivity|]);
    (split; [repeat constructor|]); intros Hd;
    [discriminate Hd | repeat constructor].
Qed.

Lemma C9_lock_scope_witness :
  held_only_for_map_access
    (calls (LogOutputStreamBase_ctor linux_env (globals_of 3 ∅) miner_main "  X"
              Warn_info 5 true)).
Proof.
  exact (proj2 (proj2 (proj2 (proj2
    (C9_lock_scope linux_env (globals_of 3 ∅) miner_main "  X" Warn_info 5 true))))
    eq_refl).
Defined.

(** For an emitting statement the mutex is not held for the access to the
    map only: the clock is read, among others, before it is released. *)
Lemma C9_counterexample :
  ¬ held_only_for_map_access
      (calls (LogOutputStreamBase_ctor linux_env (globals_of 5 ∅) miner_main "  X"
                Warn_info 0 true)).
Proof.
  unfold held_only_for_map_access. intros Hall.
  rewrite ctor_calls_under_lock in Hall.
  inversion Hall as [|? ? _ Hrest]. inversion Hrest as [|? ? Hnow _].
  discriminate Hnow.
Qed.

(** ** The default sink *)

(** [simpleDebugOut] writes the line and a newline to the error stream
    while it holds its own lock, and never takes [x_logOverride]. *)
Lemma simpleDebugOut_calls E _s _tag :
  target E ≠ Windows →
  calls (simpleDebugOut E _s _tag)
  = [lock s_lock; cerr_write (_s +:+ endl); unlock s_lock].
Proof. intros Hp. unfold simpleDebugOut. by destruct (target E). Qed.

(** * Further properties of Log.cpp *)

(** ** The decision on the parameter as it is passed *)

Lemma Int32_to_int_large u : 2 ^ 31 ≤ u < 2 ^ 32 → Int32.to_int u = u - 2 ^ 32.
Proof.
  unfold Int32.to_int. intros Hu. rewrite Z.mod_small by lia.
  case_bool_decide; lia.
Qed.

(** X1: The comparison [(int)_v <= g_logVerbosity] on the [unsigned] parameter
    [_v] of a channel without an entry in the table: up to [INT_MAX] it
    compares [_v] itself; above, the cast wraps to [_v - 2^32], a negative
    number, so that the statement emits under every verbosity that is not
    negative. *)
Theorem shouldEmit_raw_parameter g K _v :
  Int32.unsigned_range _v →
  s_logOverride g !! K = None →
  (_v < 2 ^ 31 → (shouldEmit g K _v = true ↔ _v ≤ g_logVerbosity g))
  ∧ (2 ^ 31 ≤ _v → (shouldEmit g K _v = true ↔ _v - 2 ^ 32 ≤ g_logVerbosity g))
  ∧ (2 ^ 31 ≤ _v → 0 ≤ g_logVerbosity g → shouldEmit g K _v = true).
Proof.
  unfold Int32.unsigned_range. intros Hu Hnone.
  assert (shouldEmit g K _v = true ↔ Int32.to_int _v ≤ g_logVerbosity g) as Hiff.
  { rewrite shouldEmit_unfold. unfold isForced. rewrite Hnone. cbn.
    apply bool_decide_eq_true. }
  split; [|split].
  - intros Hsmall. by rewrite Hiff, Int32_to_int_small by lia.
  - intros Hlarge. by rewrite Hiff, Int32_to_int_large by lia.
  - intros Hlarge HV. apply Hiff. rewrite Int32_to_int_large by lia. lia.
Qed.

Lemma shouldEmit_raw_parameter_witness :
  (shouldEmit (globals_of 5 ∅) Warn_info 6 = true ↔ 6 ≤ 5)
  ∧ shouldEmit (globals_of 5 ∅) Warn_info 4294967295 = true.
Proof.
  assert (H6 : Int32.unsigned_range 6) by (unfold Int32.unsigned_range; lia).
  assert (Hmax : Int32.unsigned_range 4294967295)
    by (unfold Int32.unsigned_range; lia).
  split.
  - apply (proj1 (shouldEmit_raw_parameter (globals_of 5 ∅) Warn_info 6 H6
                    (lookup_empty Warn_info))).
    lia.
  - apply (proj2 (proj2 (shouldEmit_raw_parameter (globals_of 5 ∅) Warn_info
                           4294967295 Hmax (lookup_empty Warn_info)))); cbn; lia.
Defined.

(** X2: With the table as it is, a statement that emits still emits when the
    global verbosity is raised, and so does a statement whose verbosity, as
    the constructor reads it, is lower. *)
Theorem shouldEmit_monotone g g' K _v _v' :
  s_logOverride g' = s_logOverride g →
  g_logVerbosity g ≤ g_logVerbosity g' →
  Int32.to_int _v' ≤ Int32.to_int _v →
  shouldEmit g K _v = true →
  shouldEmit g' K _v' = true.
Proof.
  intros Htable HV Hv. rewrite !shouldEmit_unfold. unfold isForced.
  rewrite Htable. destruct (s_logOverride g !! K) as [forced|]; cbn; [done|].
  rewrite !bool_decide_eq_true. lia.
Qed.

Lemma shouldEmit_monotone_witness :
  shouldEmit (globals_of 9 {[Note_info := false]}) Warn_info 2 = true.
Proof.
  apply (shouldEmit_monotone (globals_of 3 {[Note_info := false]})
           (globals_of 9 {[Note_info := false]}) Warn_info 3 2 eq_refl).
  - cbn. lia.
  - vm_compute. discriminate.
  - reflexivity.
Defined.

(** ** The constructor *)

Lemma ctor_prefix_parts E g th _id K _v _autospacing :
  shouldEmit g K _v = true →
  m_sstr (result (LogOutputStreamBase_ctor E g th _id K _v _autospacing))
  = cat (spec_prefix_parts E th _id).
Proof.
  intros Hyes. rewrite ctor_emitting by done. cbn [result m_sstr].
  by rewrite ctor_time_field, put_chain, join_spec.
Qed.

(** X3: Whatever its arguments and whether it emits or not, the constructor
    keeps [_v] and [_autospacing] in the object, writes nothing to the error
    stream or the debugger, does not call the sink, and takes and releases
    [x_logOverride] once, so that it returns with no mutex held. *)
Theorem ctor_no_output E g th _id K _v _autospacing :
  let ctor := LogOutputStreamBase_ctor E g th _id K _v _autospacing in
  m_verbosity (result ctor) = _v
  ∧ m_autospacing (result ctor) = _autospacing
  ∧ Forall (λ c, is_output c = false) (calls ctor)
  ∧ locks_ok None (calls ctor) = Some None
  ∧ cerr_output (calls ctor) = "".
Proof.
  cbn zeta. destruct (shouldEmit g K _v) eqn:Hd.
  - rewrite ctor_emitting by done. cbn. repeat split. repeat constructor.
  - rewrite ctor_suppressed by done. cbn. repeat split. repeat constructor.
Qed.

(** X4: The prefix of an emitting statement begins with the label of the
    channel followed by two spaces and ends with two spaces, after which the
    message is appended. *)
Theorem prefix_delimiters E g th _id K _v _autospacing :
  shouldEmit g K _v = true →
  ∃ middle,
    m_sstr (result (LogOutputStreamBase_ctor E g th _id K _v _autospacing))
    = _id +:+ "  " +:+ middle +:+ "  ".
Proof.
  intros Hyes. rewrite ctor_prefix_parts by done.
  exists (EthViolet E +:+ time_field E +:+ c_sep1 E +:+ getThreadName E th
          +:+ spec_join (c_sep2 E) (logContexts th) +:+ EthReset E).
  unfold cat, spec_prefix_parts, c_begin, c_end. cbn [foldr].
  by rewrite append_empty_r, !append_assoc.
Qed.

Lemma prefix_delimiters_witness :
  ∃ middle,
    m_sstr (result (LogOutputStreamBase_ctor linux_env (globals_of 5 ∅) miner_main
                      "  X" Warn_info 0 true))
    = "  X" +:+ "  " +:+ middle +:+ "  ".
Proof.
  exact (prefix_delimiters linux_env (globals_of 5 ∅) miner_main "  X" Warn_info 0
           true eq_refl).
Defined.

(** ** The context stack *)

Lemma spec_join_app (p : string) (v w : list string) :
  spec_join p (v ++ w) = spec_join p v +:+ spec_join p w.
Proof.
  induction v as [|i v IH]; cbn [spec_join app]; [reflexivity|].
  by rewrite IH, !append_assoc.
Qed.

Lemma spec_join_snoc (p n : string) (v : list string) :
  spec_join p (v ++ [n]) = spec_join p v +:+ p +:+ n.
Proof.
  rewrite spec_join_app. cbn [spec_join]. by rewrite append_empty_r.
Qed.

Lemma pop_inv (th th' : thread) :
  ThreadContext.pop th = Some th' →
  ∃ innermost,
    logContexts th = logContexts th' ++ [innermost]
    ∧ ThreadLocalLogName_name th' = ThreadLocalLogName_name th
    ∧ kernel_name th' = kernel_name th.
Proof.
  unfold ThreadContext.pop, ThreadLocalLogContext.pop. intros Hpop.
  destruct (decide (logContexts th = [])) as [Hempty|Hne].
  - rewrite Hempty in Hpop. discriminate.
  - destruct (pop_back_nonempty _ Hne) as (rest & innermost & Hv & Hback).
    rewrite Hback in Hpop. cbn in Hpop. injection Hpop as <-.
    exists innermost. by rewrite Hv.
Qed.

(** X5: [join] after a [push] is [join] before it, then the separator and the
    new entry; and when [pop] returns, [join] before it was [join] after
    it, then the separator and the entry removed. *)
Theorem join_push_pop (p n : string) (th : thread) :
  (ThreadContext.join p (ThreadContext.push n th)).1
  = (ThreadContext.join p th).1 +:+ p +:+ n
  ∧ (∀ th', ThreadContext.pop th = Some th' →
            ∃ innermost, (ThreadContext.join p th).1
                         = (ThreadContext.join p th').1 +:+ p +:+ innermost).
Proof.
  split.
  - rewrite !join_spec. cbn. apply spec_join_snoc.
  - intros th' Hpop. destruct (pop_inv _ _ Hpop) as (innermost & Hv & _).
    exists innermost. rewrite !join_spec, Hv. apply spec_join_snoc.
Qed.

Lemma join_push_pop_witness :
  ∃ innermost,
    (ThreadContext.join "/" (ThreadContext.push "a" miner_main)).1
    = (ThreadContext.join "/" miner_main).1 +:+ "/" +:+ innermost.
Proof.
  exact (proj2 (join_push_pop "/" "x" (ThreadContext.push "a" miner_main))
           miner_main eq_refl).
Defined.

Lemma push_all_contexts (ns : list string) (th : thread) :
  logContexts (push_all ns th) = logContexts th ++ ns
  ∧ ThreadLocalLogName_name (push_all ns th) = ThreadLocalLogName_name th
  ∧ kernel_name (push_all ns th) = kernel_name th.
Proof.
  unfold push_all. revert th. induction ns as [|n ns IH]; intros th; cbn [fold_left].
  - by rewrite app_nil_r.
  - destruct (IH (ThreadContext.push n th)) as (Hv & Hname & Hk).
    rewrite Hv, Hname, Hk. cbn. unfold vector.push_back.
    by rewrite <- app_assoc.
Qed.

Lemma pop_n_push_all (ns : list string) (th : thread) :
  pop_n (length ns) (push_all ns th) = Some th.
Proof.
  revert th. induction ns as [|n ns IH] using rev_ind; intros th; [reflexivity|].
  rewrite length_app. cbn [length]. replace (length ns + 1)%nat with (S (length ns)) by lia.
  cbn [pop_n]. unfold push_all. rewrite fold_left_app. cbn [fold_left].
  rewrite pop_push. cbn. apply IH.
Qed.

Lemma pop_n_is_Some (k : nat) (th : thread) :
  is_Some (pop_n k th) ↔ (k ≤ length (logContexts th))%nat.
Proof.
  revert th. induction k as [|k IH]; intros th; cbn [pop_n].
  - split; [lia | by eexists].
  - destruct (ThreadContext.pop th) as [th'|] eqn:Hpop; cbn.
    + destruct (pop_inv _ _ Hpop) as (innermost & Hv & _).
      rewrite IH, Hv, length_app. cbn. lia.
    + split; [by intros [? ?]|]. intros Hk.
      destruct (logContexts th) as [|i v] eqn:Hv; [cbn in Hk; lia|].
      unfold ThreadContext.pop, ThreadLocalLogContext.pop in Hpop.
      rewrite Hv in Hpop. discriminate.
Qed.

(** X6: The context stack is a stack: after any contexts have been pushed, as
    many calls of [pop] give back the state of the thread before the first
    [push]; and [k] calls of [pop] in a row are defined exactly when the
    stack holds at least [k] entries. *)
Theorem push_pop_balanced (ns : list string) (k : nat) (th : thread) :
  logContexts (push_all ns th) = logContexts th ++ ns
  ∧ pop_n (length ns) (push_all ns th) = Some th
  ∧ (is_Some (pop_n k th) ↔ (k ≤ length (logContexts th))%nat).
Proof.
  split; [apply push_all_contexts|]. split; [apply pop_n_push_all|].
  apply pop_n_is_Some.
Qed.

Lemma append_length (a b : string) :
  String.length (a +:+ b) = (String.length a + String.length b)%nat.
Proof.
  induction a as [|x a IH]; [reflexivity|].
  rewrite append_cons. cbn [String.length]. by rewrite IH.
Qed.

Lemma spec_join_length (p : string) (v : list string) :
  String.length (spec_join p v)
  = (length v * String.length p + sum_lengths v)%nat.
Proof.
  induction v as [|i v IH]; cbn [spec_join length sum_lengths foldr]; [reflexivity|].
  rewrite !append_length, IH. unfold sum_lengths. lia.
Qed.

(** X7: The length of the joined path: one separator for each entry, and the
    entries. *)
Theorem join_length (p : string) (th : thread) :
  String.length (ThreadContext.join p th).1
  = (length (logContexts th) * String.length p + sum_lengths (logContexts th))%nat.
Proof. rewrite join_spec. apply spec_join_length. Qed.

(** X8: With a separator that is not empty, [join] returns the empty string
    only for the empty stack. *)
Theorem join_empty_iff (p : string) (th : thread) :
  p ≠ "" →
  ((ThreadContext.join p th).1 = "" ↔ logContexts th = []).
Proof.
  intros Hp. rewrite join_spec. split.
  - destruct (logContexts th) as [|i v]; [done|]. cbn [spec_join].
    intros Hempty. by apply append_eq_empty in Hempty as [? _].
  - by intros ->.
Qed.

Lemma join_empty_iff_witness :
  (ThreadContext.join "|" (ThreadContext.push "" miner_main)).1 ≠ "".
Proof.
  intros Hempty.
  apply (join_empty_iff "|" (ThreadContext.push "" miner_main)) in Hempty;
    discriminate.
Defined.

(** X9: The context stack and the thread name do not touch each other: [push]
    and [pop] leave the name of the thread as it is, on every platform, and
    [setThreadName] leaves the stack as it is. *)
Theorem contexts_and_name_independent E (p n : string) (th : thread) :
  getThreadName E (ThreadContext.push n th) = getThreadName E th
  ∧ (∀ th', ThreadContext.pop th = Some th' →
            getThreadName E th' = getThreadName E th)
  ∧ logContexts (setThreadName E n th) = logContexts th
  ∧ (ThreadContext.join p (setThreadName E n th)).1 = (ThreadContext.join p th).1.
Proof.
  split; [reflexivity|]. split; [|split].
  - intros th' Hpop. destruct (pop_inv _ _ Hpop) as (_ & _ & Hname & Hk).
    unfold getThreadName. by rewrite Hname, Hk.
  - unfold setThreadName. by destruct (target E).
  - rewrite !join_spec. unfold setThreadName. by destruct (target E).
Qed.

Lemma contexts_and_name_independent_witness :
  getThreadName other_env miner_main
  = getThreadName other_env (ThreadContext.push "request-42" miner_main).
Proof.
  exact (proj1 (proj2 (contexts_and_name_independent other_env "/" "n"
                         (ThreadContext.push "request-42" miner_main)))
           miner_main eq_refl).
Defined.

(** ** The prefix and its parts *)

(** X10: A context pushed before a statement appears at the end of the context
    path of its prefix: the prefix is the one without that context, with the
    separator [c_sep2] and the context put in before the trailing marker. *)
Theorem prefix_after_push E g th _id K _v _autospacing (n : string) :
  shouldEmit g K _v = true →
  ∃ body,
    m_sstr (result (LogOutputStreamBase_ctor E g th _id K _v _autospacing))
    = body +:+ c_end E
    ∧ m_sstr (result (LogOutputStreamBase_ctor E g (ThreadContext.push n th)
                        _id K _v _autospacing))
      = body +:+ c_sep2 E +:+ n +:+ c_end E.
Proof.
  intros Hyes. rewrite !ctor_prefix_parts by done.
  exists (_id +:+ c_begin E +:+ time_field E +:+ c_sep1 E +:+ getThreadName E th
          +:+ spec_join (c_sep2 E) (logContexts th)).
  unfold cat, spec_prefix_parts. cbn [foldr].
  change (logContexts (ThreadContext.push n th))
    with (logContexts th ++ [n]).
  change (getThreadName E (ThreadContext.push n th)) with (getThreadName E th).
  rewrite spec_join_snoc.
  by rewrite !append_empty_r, !append_assoc.
Qed.

Lemma prefix_after_push_witness :
  ∃ body,
    m_sstr (result (LogOutputStreamBase_ctor linux_env (globals_of 5 ∅) miner_main
                      "  X" Warn_info 0 true))
    = body +:+ c_end linux_env
    ∧ m_sstr (result (LogOutputStreamBase_ctor linux_env (globals_of 5 ∅)
                        (ThreadContext.push "db-query" miner_main)
                        "  X" Warn_info 0 true))
      = body +:+ c_sep2 linux_env +:+ "db-query" +:+ c_end linux_env.
Proof.
  exact (prefix_after_push linux_env (globals_of 5 ∅) miner_main "  X" Warn_info 0
           true "db-query" eq_refl).
Defined.

(** X11: When [strftime] succeeds, that is returns a number that is not 0 after
    it has written a text without NUL and the terminating NUL to [buf], the
    time field of the prefix is that text, whatever follows the NUL in the
    array. *)
Theorem prefix_time_on_success E g th _id K _v _autospacing
    (n : nat) (text : string) (rest : list ascii) :
  strftime E 24 "%X" (localtime E (system_clock_now E))
  = (n, String.list_ascii_of_string text ++ NUL :: rest) →
  n ≠ 0%nat →
  Forall (λ c, c ≠ NUL) (String.list_ascii_of_string text) →
  shouldEmit g K _v = true →
  m_sstr (result (LogOutputStreamBase_ctor E g th _id K _v _autospacing))
  = cat [_id; c_begin E; text; c_sep1 E; getThreadName E th;
         spec_join (c_sep2 E) (logContexts th); c_end E].
Proof.
  intros Hr Hn Htext Hyes. rewrite ctor_prefix_parts by done.
  unfold spec_prefix_parts, time_field. rewrite Hr. cbn [fst snd].
  rewrite bool_decide_eq_false_2 by done.
  by rewrite cstr_terminated.
Qed.

Lemma prefix_time_on_success_witness :
  m_sstr (result (LogOutputStreamBase_ctor linux_env (globals_of 5 ∅) miner_main
                    "  X" Warn_info 0 true))
  = cat ["  X"; c_begin linux_env; "12:34:56"; c_sep1 linux_env; "nsfminer"; "";
         c_end linux_env].
Proof.
  apply (prefix_time_on_success linux_env (globals_of 5 ∅) miner_main "  X"
           Warn_info 0 true 8 "12:34:56" (replicate 15 filler)).
  - reflexivity.
  - discriminate.
  - repeat (constructor; [discriminate|]). constructor.
  - reflexivity.
Defined.

(** ** The thread name kept by the operating system *)

Lemma cstr_insert_NUL (a : list ascii) (i : nat) :
  cstr (<[i := NUL]> a) = cstr (take i a).
Proof.
  revert i. induction a as [|c a IH]; intros i; [by destruct i|].
  destruct i as [|i]; [reflexivity|].
  cbn [take cstr]. change (<[S i := NUL]> (c :: a)) with (c :: <[i := NUL]> a).
  cbn [cstr]. by rewrite IH.
Qed.

Lemma cstr_no_NUL (a : list ascii) :
  Forall (λ c, c ≠ NUL) (String.list_ascii_of_string (cstr a)).
Proof.
  induction a as [|c a IH]; cbn [cstr]; [constructor|].
  destruct (decide (c = NUL)); cbn; [constructor | by constructor].
Qed.

Lemma cstr_all (a : list ascii) :
  Forall (λ c, c ≠ NUL) a → cstr a = String.string_of_list_ascii a.
Proof.
  induction 1 as [|c a Hc Ha IH]; cbn; [reflexivity|].
  by rewrite decide_False, IH.
Qed.

Lemma cstr_length_bound (a : list ascii) :
  (String.length (cstr a) ≤ length a)%nat.
Proof.
  induction a as [|c a IH]; cbn [cstr length String.length]; [lia|].
  destruct (decide (c = NUL)); cbn [String.length]; lia.
Qed.

(** X12: On Linux and macOS [getThreadName] reads at most the first 127 bytes of
    the array [pthread_getname_np] filled: the byte at index 127 is
    overwritten before the array is read, so that the name returned has at
    most 127 characters, none of them NUL, whatever the call left in the
    array; an array without a NUL gives its first 127 bytes. *)
Theorem getThreadName_reads_127 E (th : thread) :
  target E = Linux ∨ target E = Apple →
  let buffer := pthread_getname_np E (kernel_name th) 127 in
  getThreadName E th = cstr (take 127 buffer)
  ∧ (String.length (getThreadName E th) ≤ 127)%nat
  ∧ Forall (λ c, c ≠ NUL) (String.list_ascii_of_string (getThreadName E th))
  ∧ (Forall (λ c, c ≠ NUL) (take 127 buffer) →
     getThreadName E th = String.string_of_list_ascii (take 127 buffer)).
Proof.
  intros Hos buffer.
  assert (getThreadName E th = cstr (take 127 buffer)) as Hget.
  { unfold getThreadName. destruct Hos as [-> | ->]; apply cstr_insert_NUL. }
  rewrite Hget. split; [reflexivity|]. split; [|split].
  - etrans; [apply cstr_length_bound|]. rewrite length_take. lia.
  - apply cstr_no_NUL.
  - apply cstr_all.
Qed.

Lemma getThreadName_reads_127_witness :
  getThreadName linux_env miner_main
  = cstr (take 127 (linux_getname "nsfminer" 127)).
Proof.
  exact (proj1 (getThreadName_reads_127 linux_env miner_main (or_introl eq_refl))).
Defined.

(** X13: On Linux and macOS, when [pthread_getname_np] has written a name of at
    most 127 characters, none of them NUL, and the terminating NUL,
    [getThreadName] returns that name. *)
Theorem getThreadName_returns_os_name E (th : thread)
    (name : string) (rest : list ascii) :
  target E = Linux ∨ target E = Apple →
  pthread_getname_np E (kernel_name th) 127
  = String.list_ascii_of_string name ++ NUL :: rest →
  Forall (λ c, c ≠ NUL) (String.list_ascii_of_string name) →
  (String.length name ≤ 127)%nat →
  getThreadName E th = name.
Proof.
  intros Hos Hbuf Hname Hlen.
  assert (length (String.list_ascii_of_string name) = String.length name) as Hl.
  { clear. induction name as [|c s IH]; cbn; [done | by rewrite IH]. }
  assert (getThreadName E th
          = cstr (<[127%nat := NUL]> (String.list_ascii_of_string name ++ NUL :: rest)))
    as ->.
  { unfold getThreadName. rewrite <- Hbuf. by destruct Hos as [-> | ->]. }
  rewrite insert_app_r_alt by lia.
  destruct (127 - length (String.list_ascii_of_string name))%nat as [|k];
    by apply cstr_terminated.
Qed.

Lemma getThreadName_returns_os_name_witness :
  getThreadName linux_env miner_main = "nsfminer".
Proof.
  apply (getThreadName_returns_os_name linux_env miner_main "nsfminer"
           (replicate 119 filler)).
  - left. reflexivity.
  - reflexivity.
  - repeat (constructor; [discriminate|]). constructor.
  - cbn. lia.
Defined.

(** ** The default sink *)

Lemma simpleDebugOut_calls_all E _s _tag :
  calls (simpleDebugOut E _s _tag)
  = lock s_lock :: cerr_write (_s +:+ endl)
    :: match target E with
       | Windows => [OutputDebugStringA (c_str _s); OutputDebugStringA endl]
       | _ => []
       end
    ++ [unlock s_lock].
Proof. unfold simpleDebugOut. by destruct (target E). Qed.

Lemma post_lines_cons E line rest :
  calls (post_lines E (line :: rest))
  = calls (simpleDebugOut E (line.1) (line.2)) ++ calls (post_lines E rest).
Proof. reflexivity. Qed.

Lemma cerr_output_app (a b : list call) :
  cerr_output (a ++ b) = cerr_output a +:+ cerr_output b.
Proof.
  induction a as [|c a IH]; [reflexivity|].
  destruct c; cbn [app cerr_output]; try exact IH.
  by rewrite IH, append_assoc.
Qed.

Lemma debug_output_app (a b : list call) :
  debug_output (a ++ b) = debug_output a +:+ debug_output b.
Proof.
  induction a as [|c a IH]; [reflexivity|].
  destruct c; cbn [app debug_output]; try exact IH.
  by rewrite IH, append_assoc.
Qed.

Lemma locks_ok_app (held : option mutex) (a b : list call) :
  locks_ok held (a ++ b) = held' ← locks_ok held a; locks_ok held' b.
Proof.
  revert held. induction a as [|c a IH]; intros held; [reflexivity|].
  destruct c; cbn [app locks_ok]; try apply IH.
  - by destruct held.
  - by case_decide.
Qed.

Lemma simpleDebugOut_locks_ok E _s _tag :
  locks_ok None (calls (simpleDebugOut E _s _tag)) = Some None.
Proof. rewrite simpleDebugOut_calls_all. by destruct (target E). Qed.

Lemma ctor_locks_ok E g th _id K _v _autospacing :
  locks_ok None (calls (LogOutputStreamBase_ctor E g th _id K _v _autospacing))
  = Some None.
Proof. rewrite ctor_calls. by destruct (shouldEmit g K _v). Qed.

Lemma c_str_no_NUL (s : string) :
  Forall (λ c, c ≠ NUL) (String.list_ascii_of_string s) → c_str s = s.
Proof.
  intros Hs. unfold c_str. rewrite cstr_all by done.
  apply String.string_of_list_ascii_of_string.
Qed.

(** X14: Lines handed to [simpleDebugOut] one after the other reach the error
    stream in that order, whole, each followed by one newline, whatever
    their tags.  On Windows the debugger receives, for each line, the C
    string at [_s.data()], that is the line up to its first NUL, and a
    newline: the text of the error stream when no line holds a NUL;
    elsewhere it receives nothing.  The thread ends with no mutex held. *)
Theorem sink_output_in_order E (lines : list (string * string)) :
  let cs := calls (post_lines E lines) in
  cerr_output cs = cat (map (λ line, line.1 +:+ endl) lines)
  ∧ debug_output cs
    = match target E with
      | Windows => cat (map (λ line, c_str (line.1) +:+ endl) lines)
      | _ => ""
      end
  ∧ (target E = Windows →
     Forall (λ line, Forall (λ c, c ≠ NUL) (String.list_ascii_of_string (line.1)))
       lines →
     debug_output cs = cerr_output cs)
  ∧ locks_ok None cs = Some None.
Proof.
  cbn zeta.
  assert (cerr_output (calls (post_lines E lines))
          = cat (map (λ line, line.1 +:+ endl) lines)
          ∧ debug_output (calls (post_lines E lines))
            = match target E with
              | Windows => cat (map (λ line, c_str (line.1) +:+ endl) lines)
              | _ => ""
              end
          ∧ locks_ok None (calls (post_lines E lines)) = Some None)
    as (Hc & Hd & Hl).
  { induction lines as [|line rest (IHc & IHd & IHl)].
    - cbn. by destruct (target E).
    - rewrite post_lines_cons, cerr_output_app, debug_output_app, locks_ok_app.
      rewrite simpleDebugOut_locks_ok, IHc, IHd. cbn [mbind option_bind].
      rewrite simpleDebugOut_calls_all. split; [|split; [|exact IHl]].
      + unfold cat. cbn [map foldr]. destruct (target E); cbn;
          by rewrite ?append_empty_r.
      + unfold cat. cbn [map foldr]. destruct (target E); cbn;
          by rewrite ?append_empty_r, ?append_assoc. }
  split; [exact Hc|]. split; [exact Hd|]. split; [|exact Hl].
  intros HW Hlines. rewrite Hc, Hd, HW.
  assert (map (λ line : string * string, c_str (line.1) +:+ endl) lines
          = map (λ line : string * string, line.1 +:+ endl) lines) as Hmap.
  { clear Hc Hd Hl. induction Hlines as [|line rest Hline _ IH]; [reflexivity|].
    cbn beta in Hline. cbn [map].
    rewrite (c_str_no_NUL (line.1)) by exact Hline. by rewrite IH. }
  by rewrite Hmap.
Qed.

Lemma sink_output_in_order_witness :
  debug_output (calls (post_lines windows_env
                         [("  X  share accepted", "  X"); ("  i  new job", "  i")]))
  = cerr_output (calls (post_lines windows_env
                          [("  X  share accepted", "  X"); ("  i  new job", "  i")])).
Proof.
  apply (proj1 (proj2 (proj2 (sink_output_in_order windows_env
            [("  X  share accepted", "  X"); ("  i  new job", "  i")])))).
  - reflexivity.
  - constructor; [|constructor; [|constructor]];
      cbn; repeat (constructor; [discriminate|]); constructor.
Defined.

(** A line with a NUL in it: the error stream gets all of it, the debugger
    the part before the NUL. *)
Lemma simpleDebugOut_embedded_NUL :
  cerr_output (calls (simpleDebugOut windows_env ("ab" +:+ String NUL "cd") "  X"))
  = "ab" +:+ String NUL "cd" +:+ endl
  ∧ debug_output (calls (simpleDebugOut windows_env ("ab" +:+ String NUL "cd") "  X"))
    = "ab" +:+ endl.
Proof. split; reflexivity. Qed.

(** X15: A thread that constructs log statements and calls [simpleDebugOut], in
    any order and number, never requests a mutex while it holds one (neither
    the same one again nor the other one), releases only the mutex it
    holds, and holds none at the end. *)
Theorem lock_discipline E (traces : list (list call)) :
  Forall (λ t,
    (∃ g th _id K _v _autospacing,
       t = calls (LogOutputStreamBase_ctor E g th _id K _v _autospacing))
    ∨ (∃ _s _tag, t = calls (simpleDebugOut E _s _tag))) traces →
  locks_ok None (concat traces) = Some None.
Proof.
  induction 1 as [|t traces Ht _ IH]; [reflexivity|].
  cbn [concat]. rewrite locks_ok_app.
  destruct Ht as [(g & th & _id & K & _v & _as & ->) | (_s & _tag & ->)].
  - by rewrite ctor_locks_ok.
  - by rewrite simpleDebugOut_locks_ok.
Qed.

Lemma lock_discipline_witness :
  locks_ok None
    (concat [calls (LogOutputStreamBase_ctor linux_env (globals_of 5 ∅) miner_main
                      "  X" Warn_info 0 true);
             calls (simpleDebugOut linux_env "  X  hello" "  X");
             calls (LogOutputStreamBase_ctor linux_env (globals_of 5 ∅) miner_main
                      "  i" Note_info 9 true)])
  = Some None.
Proof.
  apply (lock_discipline linux_env).
  constructor; [|constructor; [|constructor; [|constructor]]].
  - left. by exists (globals_of 5 ∅), miner_main, "  X", Warn_info, 0, true.
  - right. by exists "  X  hello", "  X".
  - left. by exists (globals_of 5 ∅), miner_main, "  i", Note_info, 9, true.
Defined.

(** ** The channel labels *)

Lemma last_char_append (a b : string) :
  b ≠ "" → last_char (a +:+ b) = last_char b.
Proof.
  intros Hb. induction a as [|x a IH]; [reflexivity|].
  rewrite append_cons. cbn [last_char]. rewrite <- IH.
  destruct (a +:+ b) eqn:Hab; [|reflexivity].
  by apply append_eq_empty in Hab as [_ ?].
Qed.

(** X16: The labels of two different channels are different strings, and no
    label is empty, on every platform and whatever the colour macros stand
    for (also when they are empty): the glyphs end in different bytes. *)
Theorem channel_name_distinct E P (c1 c2 : channel) :
  channel_name E P c1 ≠ ""
  ∧ (c1 ≠ c2 → channel_name E P c1 ≠ channel_name E P c2).
Proof.
  split.
  - intros Hempty. apply (f_equal last_char) in Hempty.
    unfold channel_name in Hempty.
    destruct (target E), c1; rewrite <- ?append_assoc in Hempty;
      rewrite last_char_append in Hempty by discriminate; discriminate Hempty.
  - intros Hne Heq. apply (f_equal last_char) in Heq.
    unfold channel_name in Heq.
    destruct (target E), c1, c2; try (by destruct Hne);
      rewrite <- ?append_assoc in Heq;
      rewrite !last_char_append in Heq by discriminate; discriminate Heq.
Qed.

Lemma channel_name_distinct_witness :
  channel_name windows_env sample_colours WarnChannel
  ≠ channel_name windows_env sample_colours DebugChannel.
Proof.
  apply (channel_name_distinct windows_env sample_colours WarnChannel DebugChannel).
  discriminate.
Defined.
